(** * Converter: byte decoding loop and thread lifecycle (src/main.cpp)

    The development embeds [Converter::run], [Converter::start],
    [Converter::stop] and the constructor and destructor of src/main.cpp.

    - The conversion of one byte (the [switch] of [run]) is the pure function
      [convert].
    - The threads are modelled by an interleaving semantics: the state of the
      program is a record [Converter] holding the private members of the
      class together with the state of the two collaborators, the program
      counter of the worker thread and the program counter of the owning
      context.  One atomic action of one thread is one [step]; a schedule is
      a list of [label]s, run by [exec]. *)

From Stdlib Require Import ZArith List String Ascii Bool Lia.
From Stdlib Require Import DecimalString DecimalZ DecimalPos.
Import ListNotations.
Local Open Scope Z_scope.

(** ** Conversion of one byte *)

(** [const int type = ((byte >> 6) & 0x03);]
    [byte] is a C++ [char] promoted to [int]; the shift of a negative value is
    arithmetic, which is what [Z.shiftr] does, so the same definition serves a
    signed [char] (-128..127) and an unsigned one (0..255). *)
Definition type (byte : Z) : Z := Z.land (Z.shiftr byte 6) 3.

(** [const int data = (byte & 0x3f);] *)
Definition data (byte : Z) : Z := Z.land byte 63.

(** [static_cast<int8_t>(n)]: reduction modulo 2^8 into -128..127. *)
Definition int8_cast (n : Z) : Z := (n + 128) mod 256 - 128.

(** The code of a character literal, as the [int] it promotes to. *)
Definition int_of_char (ch : ascii) : Z := Z.of_N (N_of_ascii ch).

(** Conversion of an [int] to the [char] stored in a [std::string]: the
    character is kept as the byte it occupies (its value modulo 2^8). *)
Definition char_cast (n : Z) : ascii := ascii_of_N (Z.to_N (n mod 256)).

(** [std::to_string(int)]: the decimal numeral, with a minus sign for a
    negative number. *)
Definition to_string (n : Z) : string := NilZero.string_of_int (Z.to_int n).

(** [std::string(1, ch)] *)
Definition string1 (ch : ascii) : string := String ch EmptyString.

(** The [switch (type)] of [run]; [None] is the [default: continue;] branch,
    which assigns no string. *)
Definition convert (byte : Z) : option string :=
  match type byte with
  | 0 => Some (to_string (data byte))
  | 1 => Some (to_string (int8_cast (data byte)))
  | 2 => Some (string1 (char_cast (int_of_char "a" + data byte)))
  | _ => None
  end.

(** ** The specification's reading of a byte

    These definitions follow the words of the specification (kind = top two
    bits, payload = bottom six bits, one rendering per kind); they are
    compared with [convert] below. *)

Inductive Kind := Unsigned | Signed | Letter | Reserved.

Definition spec_kind (b : Z) : Kind :=
  match (b / 64) mod 4 with
  | 0 => Unsigned
  | 1 => Signed
  | 2 => Letter
  | _ => Reserved
  end.

Definition spec_payload (b : Z) : Z := b mod 64.

(** Value of an 8-bit pattern read in two's complement. *)
Definition spec_signed8 (p : Z) : Z := if p <? 128 then p else p - 256.

Definition spec_render (b : Z) : option string :=
  match spec_kind b with
  | Unsigned => Some (to_string (spec_payload b))
  | Signed => Some (to_string (spec_signed8 (spec_payload b)))
  | Letter => Some (string1 (ascii_of_N (97 + Z.to_N (spec_payload b))))
  | Reserved => None
  end.

(** The renderings of the non-Reserved bytes of a sequence, in order. *)
Fixpoint spec_renderings (bs : list Z) : list string :=
  match bs with
  | [] => []
  | b :: bs' =>
      match spec_render b with
      | Some s => s :: spec_renderings bs'
      | None => spec_renderings bs'
      end
  end.

(** Encoding of a payload under the Letter kind: [0b10pppppp]. *)
Definition encode_letter (p : Z) : Z := Z.lor 128 p.

(** The number a decimal numeral denotes. *)
Definition decimal_value (s : string) : option Z :=
  option_map Z.of_int (NilZero.int_of_string s).

(** The lowercase Latin letters, in order. *)
Definition alphabet : string := "abcdefghijklmnopqrstuvwxyz".

(** ** The state of the program *)

(** Program counter of the worker thread inside [run]. *)
Inductive wpc :=
| AtLoop                (* about to evaluate [while (running_)] *)
| AtLock                (* about to construct [unique_lock lock(mutex)] *)
| AtRead                (* about to call [source_.read(byte)] *)
| AtWrite (str : string)(* about to call [sink_.write(str)] *)
| AtWait                (* about to call [cv_.wait(lock)] *)
| Waiting               (* blocked inside [cv_.wait], [mutex] released *)
| Woken                 (* woken inside [cv_.wait], [mutex] to be taken back *)
| Finished.             (* [run] has returned *)

(** Program counter of the owning context: outside of any call, or inside
    [stop] before [cv_.notify_all()] or before [thread_.join()]. *)
Inductive cpc := Idle | StopAtNotify | StopAtJoin.

(** Modelled from the spec: the declarations of the private members lie
    beyond the end of src/main.cpp as it is at hand.  The specification
    gives the converter references to a source and a sink, a running flag
    and the state of a worker thread; the methods use them as a [bool]
    ([running_]), a [std::thread] ([thread_]), a [std::mutex] ([mutex]) and a
    condition variable ([cv_]).  The record holds them together with the
    state of the two collaborators.
    - [source_]: the bytes the source has still to deliver; [read] on the
      empty list returns [false];
    - [sink_]: the strings written so far, oldest first;
    - [thread_]: [None] when [thread_] is not joinable, otherwise the program
      counter of the thread it owns;
    - [mutex]: [true] when locked;
    - [cv_] has no field: its only possible waiter is the worker, and the
      worker waits exactly when its program counter is [Waiting];
    - [caller]: where the owning context stands;
    - [spawned] counts the [std::thread] objects [start] has created. *)
Record Converter := mkConverter {
  source_ : list Z;
  sink_ : list string;
  running_ : bool;
  thread_ : option wpc;
  mutex : bool;
  caller : cpc;
  spawned : nat
}.

(** [Converter(source, sink) : source_(source), sink_(sink), running_(false)] *)
Definition init (src : list Z) : Converter :=
  mkConverter src [] false None false Idle 0.

Definition set_thread (t : option wpc) (c : Converter) : Converter :=
  mkConverter (source_ c) (sink_ c) (running_ c) t (mutex c) (caller c) (spawned c).

Definition set_mutex (m : bool) (c : Converter) : Converter :=
  mkConverter (source_ c) (sink_ c) (running_ c) (thread_ c) m (caller c) (spawned c).

Definition set_running (r : bool) (c : Converter) : Converter :=
  mkConverter (source_ c) (sink_ c) r (thread_ c) (mutex c) (caller c) (spawned c).

Definition set_caller (p : cpc) (c : Converter) : Converter :=
  mkConverter (source_ c) (sink_ c) (running_ c) (thread_ c) (mutex c) p (spawned c).

Definition set_source (src : list Z) (c : Converter) : Converter :=
  mkConverter src (sink_ c) (running_ c) (thread_ c) (mutex c) (caller c) (spawned c).

(** [sink_.write(str)] *)
Definition write (str : string) (c : Converter) : Converter :=
  mkConverter (source_ c) (sink_ c ++ [str]) (running_ c) (thread_ c) (mutex c)
    (caller c) (spawned c).

(** [thread_ = std::thread([this]() { run(); })] *)
Definition spawn (c : Converter) : Converter :=
  mkConverter (source_ c) (sink_ c) (running_ c) (Some AtLoop) (mutex c)
    (caller c) (S (spawned c)).

(** What one action does: it completes and leaves a new state, it cannot
    be taken in this state (the thread is blocked, or the action is not the
    thread's next one), it throws, or it calls [std::terminate]. *)
Inductive outcome :=
| Next (c : Converter)
| Blocked
| Throws
| Terminates.

(** ** The methods *)

(** [start()].  Assigning to a [std::thread] that is still joinable calls
    [std::terminate]. *)
Definition start (c : Converter) : outcome :=
  if running_ c then Next c
  else
    match thread_ c with
    | Some _ => Terminates
    | None => Next (spawn (set_running true c))
    end.

(** [stop()] up to [running_ = false;]: returns at once when the flag is
    clear, otherwise clears it and goes on to [cv_.notify_all()].  No lock is
    taken. *)
Definition stop_enter (c : Converter) : outcome :=
  if negb (running_ c) then Next c
  else Next (set_caller StopAtNotify (set_running false c)).

(** [cv_.notify_all()]: a worker blocked in [cv_.wait] is woken; when nobody
    waits the call has no effect. *)
Definition notify_all (c : Converter) : Converter :=
  match thread_ c with
  | Some Waiting => set_thread (Some Woken) c
  | _ => c
  end.

(** [std::thread::join]: throws on a thread that is not joinable, blocks
    until the thread has finished, and leaves the object not joinable. *)
Definition join (c : Converter) : outcome :=
  match thread_ c with
  | None => Throws
  | Some Finished => Next (set_thread None c)
  | Some _ => Blocked
  end.

(** [if (thread_.joinable()) { thread_.join(); }] and the return of [stop]. *)
Definition stop_join (c : Converter) : outcome :=
  match thread_ c with
  | Some _ =>
      match join c with
      | Next c' => Next (set_caller Idle c')
      | o => o
      end
  | None => Next (set_caller Idle c)
  end.

(** One action of the worker thread at program counter [pc] of [run].
    Leaving the loop body by [break], by [continue] or at its end destroys
    [lock], which releases [mutex].  [cv_.wait(lock)] releases [mutex] and
    blocks; once woken it takes [mutex] back and returns, and the end of the
    body releases it again: the action at [Woken] does both. *)
Definition run_step (pc : wpc) (c : Converter) : outcome :=
  match pc with
  | AtLoop =>
      if running_ c then Next (set_thread (Some AtLock) c)
      else Next (set_thread (Some Finished) c)
  | AtLock =>
      if mutex c then Blocked
      else Next (set_thread (Some AtRead) (set_mutex true c))
  | AtRead =>
      match source_ c with
      | [] => Next (set_thread (Some Finished) (set_mutex false c))
      | byte :: rest =>
          match convert byte with
          | Some str => Next (set_thread (Some (AtWrite str)) (set_source rest c))
          | None => Next (set_thread (Some AtLoop) (set_mutex false (set_source rest c)))
          end
      end
  | AtWrite str => Next (set_thread (Some AtWait) (write str c))
  | AtWait => Next (set_thread (Some Waiting) (set_mutex false c))
  | Waiting => Blocked
  | Woken =>
      if mutex c then Blocked
      else Next (set_thread (Some AtLoop) c)
  | Finished => Blocked
  end.

(** ** Schedules *)

(** The actions of the two threads: the owning context calls [start] or
    [stop] and, inside [stop], notifies and joins; the worker performs the
    next action of [run]; a blocked [cv_.wait] may wake spuriously. *)
Inductive label := CallStart | CallStop | StopNotify | StopJoin | Work | Spurious.

Definition step (l : label) (c : Converter) : outcome :=
  match l with
  | CallStart =>
      match caller c with Idle => start c | _ => Blocked end
  | CallStop =>
      match caller c with Idle => stop_enter c | _ => Blocked end
  | StopNotify =>
      match caller c with
      | StopAtNotify => Next (set_caller StopAtJoin (notify_all c))
      | _ => Blocked
      end
  | StopJoin =>
      match caller c with StopAtJoin => stop_join c | _ => Blocked end
  | Work =>
      match thread_ c with Some pc => run_step pc c | None => Blocked end
  | Spurious =>
      match thread_ c with
      | Some Waiting => Next (set_thread (Some Woken) c)
      | _ => Blocked
      end
  end.

(** Runs a schedule, stopping at the first action that does not complete. *)
Fixpoint exec (tr : list label) (c : Converter) : outcome :=
  match tr with
  | [] => Next c
  | l :: tr' =>
      match step l c with
      | Next c' => exec tr' c'
      | o => o
      end
  end.

(** The string the worker holds and has not yet written. *)
Definition pending (c : Converter) : list string :=
  match thread_ c with
  | Some (AtWrite str) => [str]
  | _ => []
  end.

Definition is_stop (l : label) : bool :=
  match l with CallStop => true | _ => false end.

Definition is_start (l : label) : bool :=
  match l with CallStart => true | _ => false end.

(** Schedules in which [stop] is never called. *)
Definition no_stop (tr : list label) : bool := forallb (fun l => negb (is_stop l)) tr.

(** The actions for one pass of the loop over a byte that is written: the
    worker tests the flag, locks, reads, writes and waits; the owner then
    calls [stop], which wakes the worker, lets it leave the loop and joins
    it, and calls [start] again. *)
Definition pass_written : list label :=
  [Work; Work; Work; Work; Work;
   CallStop; StopNotify; Work; Work; StopJoin; CallStart].

(** The worker's actions for one pass over a Reserved byte: test, lock, read. *)
Definition pass_skipped : list label := [Work; Work; Work].

(** A schedule that consumes the bytes [bs] and then meets the end of the
    stream. *)
Fixpoint drain (bs : list Z) : list label :=
  match bs with
  | [] => [Work; Work; Work]
  | b :: bs' =>
      match convert b with
      | Some _ => pass_written ++ drain bs'
      | None => pass_skipped ++ drain bs'
      end
  end.

(** The worker holds [mutex] from the construction of [lock] to the call of
    [cv_.wait] or to the end of the loop body. *)
Definition holds_lock (t : option wpc) : bool :=
  match t with
  | Some AtRead | Some (AtWrite _) | Some AtWait => true
  | _ => false
  end.

(** Facts true of every state the program reaches. *)
Record wf (c : Converter) : Prop := mkWf {
  wf_stopping : caller c <> Idle -> running_ c = false;
  wf_running : running_ c = true -> thread_ c <> None;
  wf_stopped : caller c = Idle -> running_ c = false -> thread_ c = None;
  wf_mutex : mutex c = holds_lock (thread_ c)
}.

(** The bytes read so far, and what has become of them. *)
Definition delivered_so_far (src : list Z) (c : Converter) : Prop :=
  exists delivered,
    src = (delivered ++ source_ c)%list /\
    (sink_ c ++ pending c)%list = spec_renderings delivered.

(** What holds as long as [stop] has not been called: before the first call
    of [start] nothing runs, after it the flag stays set, one thread has been
    created, and that thread can only have finished at the end of the
    stream. *)
Definition never_stopped (started : bool) (c : Converter) : Prop :=
  caller c = Idle /\
  if started then
    running_ c = true /\ spawned c = 1%nat /\ thread_ c <> None /\
    (thread_ c = Some Finished -> source_ c = [])
  else
    running_ c = false /\ spawned c = 0%nat /\ thread_ c = None.

(** The worker thread has returned from [run] (joined or not). *)
Definition exited (c : Converter) : Prop :=
  thread_ c = Some Finished \/ thread_ c = None.

(** [stop()] run to its end by the owner alone. *)
Definition stop_alone : list label := [CallStop; StopNotify; StopJoin].

(** ** Further notions used below *)

(** The byte a [char] occupies, as a number of 0..255, whether [char] is
    signed or not. *)
Definition byte_value (b : Z) : Z := b mod 256.

Definition is_spurious (l : label) : bool :=
  match l with Spurious => true | _ => false end.

(** Number of spurious returns of [cv_.wait] in a schedule. *)
Definition wakes (tr : list label) : nat := List.length (filter is_spurious tr).

(** Number of strings the worker can still write before it has to be woken
    or replaced: one from the test of a set flag up to the write, none from
    the write on. *)
Definition credit (c : Converter) : nat :=
  match thread_ c with
  | Some AtLock | Some AtRead | Some (AtWrite _) => 1
  | Some AtLoop | Some Woken => if running_ c then 1 else 0
  | _ => 0
  end%nat.

(** The end of [~Converter()], after its call of [stop()]: the members are
    destroyed, and the destructor of a joinable [std::thread] calls
    [std::terminate]. *)
Definition destroy_members (c : Converter) : outcome :=
  match thread_ c with
  | Some _ => Terminates
  | None => Next c
  end.

(** The worker's actions for [k] passes of the loop over Reserved bytes. *)
Fixpoint skip_passes (k : nat) : list label :=
  match k with
  | O => []
  | S k' => pass_skipped ++ skip_passes k'
  end.


(** * Properties of the conversion *)

Section Codec.

Lemma data_mod (b : Z) : data b = b mod 64.
Proof.
  unfold data. change 63 with (Z.ones 6).
  rewrite Z.land_ones by lia. reflexivity.
Qed.

Lemma data_range (b : Z) : 0 <= data b < 64.
Proof. rewrite data_mod. apply Z.mod_pos_bound. lia. Qed.

Lemma type_mod (b : Z) : type b = (b / 64) mod 4.
Proof.
  unfold type. change 3 with (Z.ones 2).
  rewrite Z.land_ones, Z.shiftr_div_pow2 by lia. reflexivity.
Qed.

Lemma type_cases (b : Z) : type b = 0 \/ type b = 1 \/ type b = 2 \/ type b = 3.
Proof.
  rewrite type_mod.
  pose proof (Z.mod_pos_bound (b / 64) 4 ltac:(lia)). lia.
Qed.

(** A property of every payload can be checked on the 64 numbers 0..63. *)
Lemma payload_cases (P : Z -> Prop) :
  (forall n : nat, (n < 64)%nat -> P (Z.of_nat n)) ->
  forall p, 0 <= p < 64 -> P p.
Proof.
  intros H p Hp. rewrite <- (Z2Nat.id p) by lia. apply H. lia.
Qed.

Ltac each_payload n Hn :=
  do 64 (destruct n as [|n]; [vm_compute; try reflexivity; try lia; auto|]);
  exfalso; lia.

Lemma int8_cast_small (p : Z) : -128 <= p < 128 -> int8_cast p = p.
Proof.
  intros Hp. unfold int8_cast.
  rewrite Z.mod_small by lia. lia.
Qed.

Lemma char_cast_letter (p : Z) :
  0 <= p < 64 -> char_cast (int_of_char "a" + p) = ascii_of_N (97 + Z.to_N p).
Proof.
  intros Hp. unfold char_cast. change (int_of_char "a") with 97.
  rewrite Z.mod_small by lia.
  f_equal. lia.
Qed.

(** The numeral [to_string] prints denotes the number printed. *)
Lemma decimal_value_to_string (n : Z) : decimal_value (to_string n) = Some n.
Proof.
  unfold decimal_value, to_string.
  rewrite NilZero.isi.
  - simpl. now rewrite DecimalZ.of_to.
  - destruct n; simpl; try discriminate.
    intros H; injection H as H. now apply Unsigned.to_uint_nonnil in H.
  - destruct n; simpl; try discriminate.
    intros H; injection H as H. now apply Unsigned.to_uint_nonnil in H.
Qed.

(** [convert] computes the rendering the specification describes. *)
Lemma convert_spec_render (b : Z) : convert b = spec_render b.
Proof.
  unfold convert, spec_render, spec_kind.
  rewrite <- type_mod. fold (data b). unfold spec_payload.
  rewrite <- data_mod.
  pose proof (data_range b) as Hd.
  destruct (type_cases b) as [H | [H | [H | H]]]; rewrite H; cbv beta iota.
  - reflexivity.
  - rewrite int8_cast_small by lia.
    unfold spec_signed8. destruct (Z.ltb_spec (data b) 128); [reflexivity | lia].
  - now rewrite char_cast_letter.
  - reflexivity.
Qed.

Lemma encode_letter_fields (p : Z) :
  0 <= p < 64 -> type (encode_letter p) = 2 /\ data (encode_letter p) = p.
Proof.
  revert p. apply payload_cases. intros n Hn.
  each_payload n Hn.
Qed.

Lemma letter_in_alphabet (p : Z) :
  0 <= p <= 25 ->
  String.get (Z.to_nat p) alphabet = Some (ascii_of_N (97 + Z.to_N p)).
Proof.
  intros Hp. assert (H : 0 <= p < 64) by lia. revert p H Hp.
  apply (payload_cases
           (fun p => 0 <= p <= 25 ->
              String.get (Z.to_nat p) alphabet = Some (ascii_of_N (97 + Z.to_N p)))).
  intros n Hn.
  do 26 (destruct n as [|n]; [intros _; vm_compute; reflexivity|]).
  intros Hp. exfalso. lia.
Qed.

(** C2. A byte of kind 00 is converted to the decimal numeral of the unsigned
    integer [b & 0x3F], a number of 0..63 which is [b mod 64] and which the
    numeral denotes; the byte 0b00000101 gives the string "5". *)
Theorem convert_unsigned (b : Z) :
  type b = 0 ->
  convert b = Some (to_string (Z.land b 63)) /\
  0 <= Z.land b 63 < 64 /\
  Z.land b 63 = b mod 64 /\
  decimal_value (to_string (Z.land b 63)) = Some (Z.land b 63) /\
  convert 5 = Some "5"%string.
Proof.
  intros H. unfold convert. rewrite H. fold (data b).
  repeat split; try apply data_range.
  - apply data_mod.
  - apply decimal_value_to_string.
Qed.

Lemma convert_unsigned_witness :
  type 5 = 0 /\ convert 5 = Some "5"%string.
Proof.
  split; [reflexivity | apply (convert_unsigned 5); reflexivity].
Defined.

(** C3. For a byte of kind 01 the payload lies in 0..63, its reading as an
    8-bit two's-complement number is the payload itself, hence not negative,
    and the string produced is the one produced for any byte of kind 00 with
    the same payload. *)
Theorem convert_signed_as_unsigned (b : Z) :
  type b = 1 ->
  0 <= data b < 64 /\
  int8_cast (data b) = data b /\
  0 <= int8_cast (data b) /\
  convert b = Some (to_string (int8_cast (data b))) /\
  forall b0, type b0 = 0 -> data b0 = data b -> convert b = convert b0.
Proof.
  intros H. pose proof (data_range b) as Hd.
  assert (Hc : int8_cast (data b) = data b) by (apply int8_cast_small; lia).
  repeat split; try lia.
  - unfold convert. now rewrite H.
  - intros b0 H0 Hp. unfold convert. rewrite H, H0, Hc, Hp. reflexivity.
Qed.

Lemma convert_signed_as_unsigned_witness :
  type 69 = 1 /\ convert 69 = convert 5.
Proof.
  split; [reflexivity|].
  apply (convert_signed_as_unsigned 69); reflexivity.
Defined.

(** C4. For a byte of kind 10 the string is the single character of code
    ['a' + payload], for every payload of 0..63.  Up to 25 the character is
    the payload-th lowercase letter, above 25 its code is beyond that of 'z'.
    A payload of 0..25 encoded as [0b10pppppp] is converted to that letter,
    and the byte 0b10000001 gives "b". *)
Theorem convert_letter (b : Z) :
  type b = 2 ->
  0 <= data b < 64 /\
  convert b = Some (string1 (ascii_of_N (97 + Z.to_N (data b)))) /\
  (data b <= 25 ->
   String.get (Z.to_nat (data b)) alphabet = Some (ascii_of_N (97 + Z.to_N (data b)))) /\
  (25 < data b ->
   (N_of_ascii "z" < N_of_ascii (ascii_of_N (97 + Z.to_N (data b))))%N) /\
  (forall p, 0 <= p <= 25 ->
   convert (encode_letter p) = Some (string1 (ascii_of_N (97 + Z.to_N p))) /\
   String.get (Z.to_nat p) alphabet = Some (ascii_of_N (97 + Z.to_N p))) /\
  convert 129 = Some "b"%string.
Proof.
  intros H. pose proof (data_range b) as Hd.
  split; [exact Hd|]. split.
  { unfold convert. rewrite H. now rewrite char_cast_letter. }
  split.
  { intros Hl. apply letter_in_alphabet. lia. }
  split.
  { intros Hl. rewrite N_ascii_embedding by lia. change (N_of_ascii "z") with 122%N. lia. }
  split; [|reflexivity].
  intros p Hp. split; [|now apply letter_in_alphabet].
  destruct (encode_letter_fields p ltac:(lia)) as [Ht Hdp].
  unfold convert. rewrite Ht, Hdp. now rewrite char_cast_letter by lia.
Qed.

Lemma convert_letter_witness :
  type 129 = 2 /\ convert 129 = Some "b"%string.
Proof.
  split; [reflexivity|].
  apply (convert_letter 129); reflexivity.
Defined.

End Codec.

(** * Properties of the threads *)

Section Schedules.

Lemma exec_app (t1 t2 : list label) (c : Converter) :
  exec (t1 ++ t2) c =
  match exec t1 c with
  | Next c' => exec t2 c'
  | o => o
  end.
Proof.
  revert c. induction t1 as [|l t1 IH]; intros c; simpl.
  - reflexivity.
  - destruct (step l c); auto.
Qed.

Lemma exec_snoc (tr : list label) (l : label) (c c' : Converter) :
  exec (tr ++ [l]) c = Next c' ->
  exists c0, exec tr c = Next c0 /\ step l c0 = Next c'.
Proof.
  rewrite exec_app. destruct (exec tr c) as [c0| | |]; try discriminate.
  simpl. intros H. exists c0. split; [reflexivity|].
  destruct (step l c0); congruence.
Qed.

(** A property kept by every action is kept by every schedule. *)
Lemma exec_invariant (I : Converter -> Prop) :
  (forall l c c', I c -> step l c = Next c' -> I c') ->
  forall tr c c', I c -> exec tr c = Next c' -> I c'.
Proof.
  intros Hstep. induction tr as [|l tr IH]; intros c c' Hc H; simpl in H.
  - now injection H as <-.
  - destruct (step l c) as [c1| | |] eqn:E; try discriminate.
    eapply IH; [|exact H]. eapply Hstep; eauto.
Qed.

End Schedules.

(** Case analysis on an action that completed: [H : step l c = Next c']. *)
Ltac open_methods H :=
  unfold step, start, stop_enter, stop_join, join, notify_all, run_step in H.

Ltac split_step H :=
  open_methods H; simpl in H;
  repeat match goal with
         | E : context [match ?x with _ => _ end] |- _ =>
             match type of E with
             | @eq outcome _ _ => destruct x eqn:?; simpl in E; try discriminate E
             end
         end;
  try discriminate H;
  repeat match goal with
         | E : Next _ = Next _ |- _ => injection E as E; subst
         end.

(** Discharges the premises of the hypotheses that constructors decide. *)
Ltac feed_premises :=
  repeat match goal with
         | H : ?P -> _ |- _ =>
             let X := fresh in
             assert (X : P) by congruence; specialize (H X); clear X
         end.

Section Lifecycle.

Lemma wf_init (src : list Z) : wf (init src).
Proof. split; simpl; congruence. Qed.

Lemma wf_step (l : label) (c c' : Converter) :
  wf c -> step l c = Next c' -> wf c'.
Proof.
  intros [Ha Hb Hc Hd] H.
  destruct c as [src snk [|] t m cl n]; simpl in *;
    destruct l; split_step H; subst; feed_premises;
    split; simpl in *; intros; feed_premises; try congruence; auto.
Qed.

Lemma wf_exec (tr : list label) (c c' : Converter) :
  wf c -> exec tr c = Next c' -> wf c'.
Proof. apply (exec_invariant wf). intros l c0 c1. apply wf_step. Qed.

Lemma wf_reachable (src : list Z) (tr : list label) (c : Converter) :
  exec tr (init src) = Next c -> wf c.
Proof. apply wf_exec, wf_init. Qed.

(** [thread_.join()] is guarded by [joinable()]: no action throws. *)
Lemma step_no_throw (l : label) (c : Converter) : step l c <> Throws.
Proof.
  destruct c as [src snk r t m cl n]. intros H.
  destruct l; split_step H.
Qed.

(** [start] never assigns to a joinable thread. *)
Lemma step_no_terminate (l : label) (c : Converter) :
  wf c -> step l c <> Terminates.
Proof.
  intros [Ha Hb Hc Hd] H.
  destruct c as [src snk r t m cl n]; simpl in *.
  destruct l; split_step H; feed_premises; congruence.
Qed.

Lemma exec_safe (tr : list label) (c : Converter) :
  wf c -> exec tr c <> Throws /\ exec tr c <> Terminates.
Proof.
  revert c. induction tr as [|l tr IH]; intros c Hwf; simpl.
  - split; discriminate.
  - destruct (step l c) as [c1| | |] eqn:E.
    + apply IH. eapply wf_step; eauto.
    + split; discriminate.
    + now apply step_no_throw in E.
    + now apply step_no_terminate in E.
Qed.

End Lifecycle.

Section Ordering.

Lemma spec_renderings_app (xs ys : list Z) :
  spec_renderings (xs ++ ys) = (spec_renderings xs ++ spec_renderings ys)%list.
Proof.
  induction xs as [|x xs IH]; simpl; [reflexivity|].
  destruct (spec_render x); simpl; now rewrite IH.
Qed.

Lemma spec_renderings_written (xs : list Z) (b : Z) (str : string) :
  convert b = Some str ->
  spec_renderings (xs ++ [b]) = (spec_renderings xs ++ [str])%list.
Proof.
  intros H. rewrite spec_renderings_app. simpl.
  rewrite <- convert_spec_render, H. reflexivity.
Qed.

Lemma spec_renderings_skipped (xs : list Z) (b : Z) :
  convert b = None -> spec_renderings (xs ++ [b]) = spec_renderings xs.
Proof.
  intros H. rewrite spec_renderings_app. simpl.
  rewrite <- convert_spec_render, H. apply app_nil_r.
Qed.

Lemma delivered_step (src : list Z) (l : label) (c c' : Converter) :
  delivered_so_far src c -> step l c = Next c' -> delivered_so_far src c'.
Proof.
  intros [d [Hs Hr]] H. unfold delivered_so_far, pending in *.
  destruct c as [bs snk r t m cl n]; simpl in *.
  destruct l; split_step H; simpl in *;
    try (exists d; split; [reflexivity | rewrite ?app_nil_r in *; assumption]).
  - match goal with E : convert ?b = Some _ |- _ => exists (d ++ [b])%list end.
    rewrite <- app_assoc. split; [reflexivity|].
    rewrite app_nil_r in Hr.
    erewrite spec_renderings_written by eassumption. now rewrite Hr.
  - match goal with E : convert ?b = None |- _ => exists (d ++ [b])%list end.
    rewrite <- app_assoc. split; [reflexivity|].
    rewrite app_nil_r in *. now rewrite spec_renderings_skipped.
Qed.

Lemma delivered_reachable (src : list Z) (tr : list label) (c : Converter) :
  exec tr (init src) = Next c -> delivered_so_far src c.
Proof.
  apply (exec_invariant (delivered_so_far src)).
  - intros l c0 c1. apply delivered_step.
  - exists []. split; reflexivity.
Qed.

Lemma pass_written_exec (b : Z) (str : string) (rest : list Z)
      (snk : list string) (n : nat) :
  convert b = Some str ->
  exec pass_written (mkConverter (b :: rest) snk true (Some AtLoop) false Idle n) =
  Next (mkConverter rest (snk ++ [str]) true (Some AtLoop) false Idle (S n)).
Proof. intros E. unfold pass_written. simpl. rewrite E. reflexivity. Qed.

Lemma pass_skipped_exec (b : Z) (rest : list Z) (snk : list string) (n : nat) :
  convert b = None ->
  exec pass_skipped (mkConverter (b :: rest) snk true (Some AtLoop) false Idle n) =
  Next (mkConverter rest snk true (Some AtLoop) false Idle n).
Proof. intros E. unfold pass_skipped. simpl. rewrite E. reflexivity. Qed.

(** The schedule [drain bs] is accepted by a freshly started worker and
    delivers every byte. *)
Lemma drain_exec (bs : list Z) :
  forall snk n,
    exists c',
      exec (drain bs) (mkConverter bs snk true (Some AtLoop) false Idle n) = Next c' /\
      source_ c' = [] /\
      thread_ c' = Some Finished /\
      sink_ c' = (snk ++ spec_renderings bs)%list.
Proof.
  induction bs as [|b bs IH]; intros snk n.
  - eexists. split; [reflexivity|]. simpl. now rewrite app_nil_r.
  - cbn [drain spec_renderings]. rewrite <- convert_spec_render.
    destruct (convert b) as [str|] eqn:E; rewrite exec_app.
    + rewrite (pass_written_exec _ _ _ _ _ E).
      destruct (IH (snk ++ [str])%list (S n)) as [c' [He [Hs [Ht Hk]]]].
      exists c'. rewrite <- app_assoc in Hk. auto.
    + rewrite (pass_skipped_exec _ _ _ _ E).
      destruct (IH snk n) as [c' [He [Hs [Ht Hk]]]].
      exists c'. auto.
Qed.

(** C1. In every state the program reaches, the bytes the source has
    delivered are a prefix of its sequence, and the strings passed to the
    sink, followed by the one the worker is about to pass, are the renderings
    of the delivered non-Reserved bytes in their order (unsigned decimal for
    kind 00, signed decimal for kind 01, the character ['a' + payload] for
    kind 10); once the whole sequence is delivered and written the sink holds
    exactly the renderings of the sequence, and there is a schedule that
    delivers it all. *)
Theorem sink_renders_delivered (src : list Z) (tr : list label) (c : Converter) :
  exec tr (init src) = Next c ->
  (exists delivered,
      src = (delivered ++ source_ c)%list /\
      (sink_ c ++ pending c)%list = spec_renderings delivered) /\
  (source_ c = [] -> pending c = [] -> sink_ c = spec_renderings src) /\
  (exists full,
      exec (CallStart :: drain src) (init src) = Next full /\
      source_ full = [] /\
      thread_ full = Some Finished /\
      sink_ full = spec_renderings src).
Proof.
  intros H. pose proof (delivered_reachable _ _ _ H) as [d [Hs Hr]].
  split; [exists d; auto|]. split.
  - intros Hnil Hp. rewrite Hnil, app_nil_r in Hs. rewrite Hp, app_nil_r in Hr.
    congruence.
  - cbn [exec]. change (step CallStart (init src)) with
      (Next (mkConverter src [] true (Some AtLoop) false Idle 1)).
    apply (drain_exec src [] 1%nat).
Qed.

Lemma sink_renders_delivered_witness :
  let src := [5; 255; 129; 70] in
  let c := mkConverter [] ["5"; "b"; "6"]%string true (Some Finished) false Idle 4 in
  exec (CallStart :: drain src) (init src) = Next c /\
  sink_ c = spec_renderings src.
Proof.
  intros src c.
  assert (H : exec (CallStart :: drain src) (init src) = Next c)
    by (vm_compute; reflexivity).
  split; [exact H|].
  apply (sink_renders_delivered src (CallStart :: drain src) c H); reflexivity.
Defined.

End Ordering.

Section StartStop.

Lemma never_stopped_step (st : bool) (l : label) (c c' : Converter) :
  never_stopped st c -> is_stop l = false -> step l c = Next c' ->
  never_stopped (st || is_start l) c'.
Proof.
  unfold never_stopped. intros [Hc Hs] Hl H.
  destruct c as [src snk r t m cl n]; simpl in *. subst cl.
  destruct st; simpl in *.
  - destruct Hs as [-> [-> [Ht Hf]]].
    destruct l; try discriminate; split_step H; simpl;
      repeat split; try congruence; auto.
  - destruct Hs as [-> [-> ->]].
    destruct l; try discriminate; split_step H; simpl;
      repeat split; try congruence; auto.
Qed.

Lemma never_stopped_exec (tr : list label) :
  forall st c c',
    never_stopped st c -> no_stop tr = true -> exec tr c = Next c' ->
    never_stopped (st || existsb is_start tr) c'.
Proof.
  induction tr as [|l tr IH]; intros st c c' Hc Hn H; simpl in *.
  - injection H as <-. now rewrite orb_false_r.
  - apply andb_prop in Hn as [Hl Hn]. apply negb_true_iff in Hl.
    destruct (step l c) as [c1| | |] eqn:E; try discriminate.
    rewrite orb_assoc. eapply IH; eauto using never_stopped_step.
Qed.

Lemma never_stopped_init (src : list Z) : never_stopped false (init src).
Proof. repeat split. Qed.

(** Once the worker has finished and the flag is still set, nothing moves
    until [stop] is called. *)
Lemma finished_frozen (tr : list label) (c c' : Converter) :
  caller c = Idle -> running_ c = true -> thread_ c = Some Finished ->
  no_stop tr = true -> exec tr c = Next c' -> c' = c.
Proof.
  intros Hc Hr Ht. induction tr as [|l tr IH]; simpl; intros Hn H.
  - congruence.
  - apply andb_prop in Hn as [Hl Hn].
    assert (E : step l c = Next c \/ step l c = Blocked).
    { destruct c as [src snk r t m cl n]; simpl in *; subst.
      destruct l; try discriminate; auto. }
    destruct E as [E | E]; rewrite E in H; [auto | discriminate].
Qed.

(** [stop], called while the finished worker is not yet joined, runs to its
    end without waiting for anybody. *)
Lemma stop_alone_exec (c : Converter) :
  caller c = Idle -> running_ c = true -> thread_ c = Some Finished ->
  exec stop_alone c =
  Next (mkConverter (source_ c) (sink_ c) false None (mutex c) Idle (spawned c)).
Proof.
  destruct c as [src snk r t m cl n]; simpl. intros -> -> ->. reflexivity.
Qed.

Lemma start_twice (c : Converter) :
  exec [CallStart; CallStart] c = exec [CallStart] c.
Proof.
  destruct c as [src snk [|] [pc|] m [| |] n]; reflexivity.
Qed.

Lemma spawned_step (l : label) (c c' : Converter) :
  step l c = Next c' -> (spawned c <= spawned c')%nat.
Proof.
  intros H. destruct c as [src snk r t m cl n]; simpl.
  destruct l; split_step H; simpl; lia.
Qed.

Lemma spawned_exec (tr : list label) :
  forall c c', exec tr c = Next c' -> (spawned c <= spawned c')%nat.
Proof.
  induction tr as [|l tr IH]; intros c c' H; simpl in H.
  - injection H as <-. lia.
  - destruct (step l c) as [c1| | |] eqn:E; try discriminate.
    apply spawned_step in E. apply IH in H. lia.
Qed.

(** After the worker has returned, and as long as no new thread is created,
    no worker action takes place and the sink is left alone. *)
Lemma exited_quiet (tr : list label) :
  forall c c',
    exited c -> exec tr c = Next c' -> spawned c' = spawned c ->
    ~ In Work tr /\ sink_ c' = sink_ c /\ source_ c' = source_ c.
Proof.
  induction tr as [|l tr IH]; intros c c' Hx H Hn; simpl in H.
  - injection H as <-. auto.
  - destruct (step l c) as [c1| | |] eqn:E; try discriminate.
    pose proof (spawned_step _ _ _ E) as Hle1.
    pose proof (spawned_exec _ _ _ H) as Hle2.
    assert (Hq : l <> Work /\ sink_ c1 = sink_ c /\ source_ c1 = source_ c /\
                 (exited c1 \/ spawned c1 = S (spawned c))).
    { unfold exited in *.
      destruct c as [src snk r t m cl n]; simpl in *.
      destruct Hx as [-> | ->]; destruct l; split_step E; simpl;
        repeat split; auto; discriminate. }
    destruct Hq as [Hl [Hk [Hs [Hx1 | Hsp]]]]; [|lia].
    destruct (IH c1 c' Hx1 H ltac:(lia)) as [Hin [Hk' Hs']].
    split; [|split; congruence].
    simpl. intros [Heq | Hin']; auto.
Qed.

End StartStop.

Section Claims.

(** C5. When the byte read has kind 11, the worker's action writes nothing
    and holds nothing to be written, releases the lock and returns to the
    test of the loop; with the flag still set its next two actions take it to
    the read of the next byte, so that no wait lies on the way.  The byte
    0b11111111 is such a byte, read as 255 or as -1. *)
Theorem reserved_skipped (c : Converter) (b : Z) (rest : list Z) :
  type b = 3 ->
  thread_ c = Some AtRead ->
  source_ c = b :: rest ->
  convert b = None /\
  (exists c',
      step Work c = Next c' /\
      sink_ c' = sink_ c /\ pending c' = [] /\ source_ c' = rest /\
      thread_ c' = Some AtLoop /\ mutex c' = false /\
      (running_ c = true ->
       exists c'',
         exec [Work; Work] c' = Next c'' /\
         thread_ c'' = Some AtRead /\ source_ c'' = rest /\
         sink_ c'' = sink_ c)) /\
  type 255 = 3 /\ type (-1) = 3.
Proof.
  intros Hb Ht Hs.
  assert (Hc : convert b = None) by (unfold convert; now rewrite Hb).
  split; [exact Hc|]. split; [|split; reflexivity].
  destruct c as [src snk r t m cl n]; simpl in *; subst.
  eexists. split; [simpl; rewrite Hc; reflexivity|]. simpl.
  repeat split. intros ->. eexists. split; [reflexivity|]. repeat split.
Qed.

Lemma reserved_skipped_witness :
  let c := mkConverter [255; 5] [] true (Some AtRead) true Idle 1 in
  convert 255 = None /\
  exists c', step Work c = Next c' /\ sink_ c' = [] /\ source_ c' = [5].
Proof.
  intros c.
  destruct (reserved_skipped c 255 [5] eq_refl eq_refl eq_refl)
    as [Hc [[c' [Hstep [Hk [_ [Hs _]]]]] _]].
  split; [exact Hc|]. exists c'. auto.
Defined.

(** C6. When the read reports the end of the stream, the worker's action
    leaves [run]: nothing is written, the lock is released, the thread has
    no further action, and as long as no new thread is created no worker
    action takes place and sink and source stay as they are.  When the
    source is empty from the start, the sink never receives anything. *)
Theorem end_of_stream_exits (src : list Z) (tr : list label) (c : Converter) :
  exec tr (init src) = Next c ->
  (src = [] -> sink_ c = [] /\ pending c = []) /\
  (thread_ c = Some AtRead -> source_ c = [] ->
   exists c',
     step Work c = Next c' /\
     thread_ c' = Some Finished /\
     sink_ c' = sink_ c /\ source_ c' = [] /\ mutex c' = false /\
     step Work c' = Blocked /\
     forall tr2 c2,
       exec tr2 c' = Next c2 -> spawned c2 = spawned c' ->
       ~ In Work tr2 /\ sink_ c2 = sink_ c' /\ source_ c2 = source_ c').
Proof.
  intros H. split.
  - intros ->. destruct (delivered_reachable _ _ _ H) as [d [Hs Hr]].
    symmetry in Hs. apply app_eq_nil in Hs as [-> _]. simpl in Hr.
    now apply app_eq_nil in Hr.
  - intros Ht Hs.
    exists (mkConverter [] (sink_ c) (running_ c) (Some Finished) false
              (caller c) (spawned c)).
    split.
    { destruct c as [bs snk r t m cl n]; simpl in *; subst. reflexivity. }
    repeat split.
    + intros Hin. eapply exited_quiet in H0; [|left; reflexivity|assumption].
      now apply H0.
    + eapply exited_quiet in H0; [|left; reflexivity|assumption]. apply H0.
    + eapply exited_quiet in H0; [|left; reflexivity|assumption]. apply H0.
Qed.

Lemma end_of_stream_exits_witness :
  let c := mkConverter [] [] true (Some AtRead) true Idle 1 in
  exec [CallStart; Work; Work] (init []) = Next c /\
  sink_ c = [] /\
  exists c', step Work c = Next c' /\ thread_ c' = Some Finished /\ sink_ c' = [].
Proof.
  intros c.
  assert (H : exec [CallStart; Work; Work] (init []) = Next c) by reflexivity.
  destruct (end_of_stream_exits [] _ c H) as [Hz Hx].
  split; [exact H|]. split; [apply Hz; reflexivity|].
  destruct (Hx eq_refl eq_refl) as [c' [Hstep [Ht [Hk _]]]].
  exists c'. auto.
Defined.

(** C7. [start] on a converter whose flag is set changes nothing; two calls
    in a row do what one call does; on a stopped converter [start] sets the
    flag and creates one thread; and whatever the worker does in between,
    as long as [stop] is not called every call of [start] after the first
    changes nothing, so that exactly one thread has been created. *)
Theorem start_idempotent (src : list Z) (tr : list label) (c : Converter) :
  exec tr (init src) = Next c ->
  exec [CallStart; CallStart] c = exec [CallStart] c /\
  (running_ c = true -> start c = Next c) /\
  (running_ c = false -> caller c = Idle ->
   exists c',
     step CallStart c = Next c' /\ running_ c' = true /\
     thread_ c' = Some AtLoop /\ spawned c' = S (spawned c) /\
     step CallStart c' = Next c') /\
  (no_stop tr = true -> existsb is_start tr = true ->
   running_ c = true /\ spawned c = 1%nat /\ thread_ c <> None /\
   step CallStart c = Next c).
Proof.
  intros H. split; [apply start_twice|]. split; [|split].
  - intros Hr. unfold start. now rewrite Hr.
  - intros Hr Hc. pose proof (wf_reachable _ _ _ H) as Hwf.
    pose proof (wf_stopped _ Hwf Hc Hr) as Ht.
    destruct c as [bs snk r t m cl n]; simpl in *; subst.
    eexists. split; [reflexivity|]. repeat split.
  - intros Hn Hs.
    pose proof (never_stopped_exec _ _ _ _ (never_stopped_init src) Hn H) as Hi.
    simpl in Hi. rewrite Hs in Hi. destruct Hi as [Hc [Hr [Hsp [Ht _]]]].
    repeat split; auto.
    unfold step, start. now rewrite Hc, Hr.
Qed.

Lemma start_idempotent_witness :
  let c := mkConverter [7] ["5"%string] true (Some AtWait) true Idle 1 in
  exec [CallStart; Work; CallStart; Work; Work; Work; CallStart] (init [5; 7]) = Next c /\
  spawned c = 1%nat /\ step CallStart c = Next c.
Proof.
  intros c.
  assert (H : exec [CallStart; Work; CallStart; Work; Work; Work; CallStart]
                (init [5; 7]) = Next c) by (vm_compute; reflexivity).
  split; [exact H|].
  destruct (start_idempotent _ _ _ H) as [_ [_ [_ Hn]]].
  destruct (Hn eq_refl eq_refl) as [_ [Hsp [_ Hst]]]. auto.
Defined.

(** C8. No action of [start] or [stop] throws or terminates the program.
    When a call of [stop] has just returned, a second call returns at once
    and changes nothing.  When the worker has left [run] by itself and is
    not yet joined, [stop] runs to its end without waiting: it clears the
    flag and joins the thread. *)
Theorem stop_safe (src : list Z) (tr : list label) (c : Converter) :
  exec tr (init src) = Next c ->
  (forall tr2, exec tr2 c <> Throws /\ exec tr2 c <> Terminates) /\
  (forall tr0 l, tr = (tr0 ++ [l])%list ->
     l = StopJoin \/ (l = CallStop /\ caller c = Idle) ->
     step CallStop c = Next c) /\
  (caller c = Idle -> thread_ c = Some Finished ->
   exists c',
     exec stop_alone c = Next c' /\
     running_ c' = false /\ thread_ c' = None /\ caller c' = Idle /\
     sink_ c' = sink_ c /\ step CallStop c' = Next c').
Proof.
  intros H. pose proof (wf_reachable _ _ _ H) as Hwf.
  split; [intros tr2; now apply exec_safe|]. split.
  - intros tr0 l -> Hl.
    apply exec_snoc in H as [c0 [H0 Hstep]].
    pose proof (wf_reachable _ _ _ H0) as [Ha Hb Hc Hd].
    destruct c0 as [bs snk [|] t m cl n]; simpl in *;
    destruct Hl as [-> | [-> Hidle]].
    + split_step Hstep; feed_premises; first [discriminate | reflexivity].
    + split_step Hstep; simpl in *; first [discriminate | reflexivity].
    + split_step Hstep; feed_premises; first [discriminate | reflexivity].
    + split_step Hstep; simpl in *; first [discriminate | reflexivity].
  - intros Hc Ht.
    assert (Hr : running_ c = true).
    { destruct (running_ c) eqn:E; [reflexivity|].
      pose proof (wf_stopped _ Hwf Hc E). congruence. }
    rewrite (stop_alone_exec c Hc Hr Ht).
    eexists. split; [reflexivity|]. repeat split.
Qed.

Lemma stop_safe_witness :
  let c := mkConverter [] [] false None false Idle 1 in
  exec [CallStart; Work; Work; Work; CallStop; StopNotify; StopJoin] (init []) = Next c /\
  step CallStop c = Next c.
Proof.
  intros c.
  assert (H : exec [CallStart; Work; Work; Work; CallStop; StopNotify; StopJoin]
                (init []) = Next c) by reflexivity.
  split; [exact H|].
  destruct (stop_safe _ _ _ H) as [_ [Htwice _]].
  apply (Htwice [CallStart; Work; Work; Work; CallStop; StopNotify] StopJoin eq_refl).
  left. reflexivity.
Defined.

(** When [stop] returns after its join, the flag is clear and the worker
    has been joined. *)
Lemma stop_returns_joined (src : list Z) (tr : list label) (c c' : Converter) :
  exec tr (init src) = Next c -> step StopJoin c = Next c' ->
  running_ c' = false /\ thread_ c' = None /\ caller c' = Idle.
Proof.
  intros H Hstep. pose proof (wf_reachable _ _ _ H) as [Ha Hb Hc Hd].
  destruct c as [bs snk r t m cl n]; simpl in *.
  split_step Hstep; feed_premises; simpl; auto.
Qed.


(** C9. [stop] takes no lock, so its notification can fall between the
    worker's write and the worker's wait.  From [init [5]]: the worker
    writes "5" and is about to wait; [stop] clears the flag and notifies
    nobody; the worker then waits.  In the state reached the worker is
    blocked in [cv_.wait], the owner is blocked in [join], and no action but
    a spurious return of the wait can take place. *)
Theorem stop_loses_wakeup :
  let tr := [CallStart; Work; Work; Work; Work; CallStop; StopNotify; Work] in
  let c := mkConverter [] ["5"%string] false (Some Waiting) false StopAtJoin 1 in
  exec tr (init [5]) = Next c /\
  (forall l, l <> Spurious -> step l c = Blocked) /\
  (forall tr2 c2, ~ In Spurious tr2 -> exec tr2 c = Next c2 -> tr2 = []).
Proof.
  intros tr c.
  assert (Hb : forall l, l <> Spurious -> step l c = Blocked)
    by (intros [| | | | |] Hl; try reflexivity; now elim Hl).
  split; [reflexivity|]. split; [exact Hb|].
  intros [|l tr2] c2 Hin H; [reflexivity|].
  simpl in H. rewrite Hb in H; [discriminate|].
  intros ->. apply Hin. now left.
Qed.

(** A finished worker that the owner finds outside of [stop] has met the
    end of the stream: a worker that left the loop because the flag was
    clear is joined before [stop] returns. *)
Lemma finished_idle_step (l : label) (c c' : Converter) :
  wf c ->
  (thread_ c = Some Finished -> caller c = Idle -> source_ c = []) ->
  step l c = Next c' ->
  thread_ c' = Some Finished -> caller c' = Idle -> source_ c' = [].
Proof.
  intros [Ha Hb Hc Hd] Hk H.
  destruct c as [bs snk [|] t m cl n]; simpl in *;
    destruct l; split_step H; simpl in *; intros Ht Hi;
    feed_premises; first [reflexivity | congruence | auto].
Qed.

Lemma finished_idle_reachable (src : list Z) (tr : list label) (c : Converter) :
  exec tr (init src) = Next c ->
  thread_ c = Some Finished -> caller c = Idle -> source_ c = [].
Proof.
  intros H.
  apply (exec_invariant
           (fun c => wf c /\
                     (thread_ c = Some Finished -> caller c = Idle ->
                      source_ c = [])))
    with (tr := tr) (c := init src) (c' := c).
  - intros l c0 c1 [Hwf Hk] Hstep. split.
    + eapply wf_step; eauto.
    + eapply finished_idle_step; eauto.
  - split; [apply wf_init | discriminate].
  - exact H.
Qed.

(** C10. The [break] of [run] does not touch the flag: the worker that
    meets the end of the stream returns with the flag as it was, set when
    the owner is outside of [stop].  In every state the program reaches,
    after any number of calls of [stop] and [start], in which the owner is
    outside of [stop] and the worker has finished without being joined, the
    worker has met the end of the stream and the flag is still set; [start]
    changes nothing, and neither does any schedule without [stop]; [stop]
    clears the flag and joins the thread, after which [start] creates a
    new worker. *)
Theorem running_flag_left_set (src : list Z) (tr : list label) (c : Converter) :
  exec tr (init src) = Next c ->
  (forall c0 c0',
     thread_ c0 = Some AtRead -> source_ c0 = [] -> step Work c0 = Next c0' ->
     thread_ c0' = Some Finished /\ running_ c0' = running_ c0) /\
  (thread_ c = Some AtRead -> source_ c = [] -> caller c = Idle ->
   exists c',
     step Work c = Next c' /\ thread_ c' = Some Finished /\
     running_ c' = true /\ caller c' = Idle) /\
  (caller c = Idle -> thread_ c = Some Finished ->
   source_ c = [] /\ running_ c = true /\
   step CallStart c = Next c /\
   (forall tr2 c2, no_stop tr2 = true -> exec tr2 c = Next c2 ->
      c2 = c /\ spawned c2 = spawned c) /\
   (no_stop tr = true -> spawned c = 1%nat) /\
   (exists c1 c2,
      exec stop_alone c = Next c1 /\
      running_ c1 = false /\ thread_ c1 = None /\
      step CallStart c1 = Next c2 /\
      running_ c2 = true /\ thread_ c2 = Some AtLoop /\
      spawned c2 = S (spawned c))).
Proof.
  intros H. pose proof (wf_reachable _ _ _ H) as Hwf.
  assert (Hset : caller c = Idle -> thread_ c <> None -> running_ c = true).
  { intros Hi Ht. destruct (running_ c) eqn:E; [reflexivity|].
    elim Ht. now apply (wf_stopped _ Hwf). }
  split; [|split].
  - intros c0 c0' Ht0 Hs0 Hstep.
    destruct c0 as [bs snk r t m cl n]; simpl in *; subst.
    injection Hstep as <-. split; reflexivity.
  - intros Ht Hs Hi.
    assert (Hr : running_ c = true) by (apply Hset; congruence).
    destruct c as [bs snk r t m cl n]; simpl in *; subst.
    eexists. split; [reflexivity|]. repeat split.
  - intros Hi Ht.
    assert (Hr : running_ c = true) by (apply Hset; congruence).
    split; [now apply (finished_idle_reachable _ _ _ H)|].
    split; [exact Hr|]. split.
    { unfold step, start. now rewrite Hi, Hr. }
    split.
    { intros tr2 c2 Hn2 H2.
      pose proof (finished_frozen _ _ _ Hi Hr Ht Hn2 H2) as ->. auto. }
    split.
    { intros Hn.
      pose proof (never_stopped_exec _ _ _ _ (never_stopped_init src) Hn H)
        as [_ Hns].
      simpl in Hns. destruct (existsb is_start tr).
      - now destruct Hns as [_ [Hsp _]].
      - destruct Hns as [_ [_ Hnone]]. congruence. }
    rewrite (stop_alone_exec c Hi Hr Ht).
    eexists. eexists. split; [reflexivity|]. simpl. repeat split.
Qed.

Lemma running_flag_left_set_witness :
  let tr := [CallStart; Work; Work; Work; Work; Work;
             CallStop; StopNotify; Work; Work; StopJoin;
             CallStart; Work; Work; Work] in
  let c := mkConverter [] ["5"%string] true (Some Finished) false Idle 2 in
  exec tr (init [5]) = Next c /\
  running_ c = true /\ step CallStart c = Next c.
Proof.
  intros tr c.
  assert (H : exec tr (init [5]) = Next c) by (vm_compute; reflexivity).
  split; [exact H|].
  destruct (running_flag_left_set _ _ _ H) as [_ [_ Hf]].
  destruct (Hf eq_refl eq_refl) as [_ [Hr [Hs _]]].
  auto.
Defined.

End Claims.

(** * Further properties of the conversion *)

Section CodecMore.

Ltac every_payload n :=
  do 64 (destruct n as [|n]; [vm_compute; reflexivity|]); exfalso; lia.

Lemma type_shift (b k : Z) : type (b + 256 * k) = type b.
Proof.
  rewrite !type_mod.
  replace (b + 256 * k) with (b + (4 * k) * 64) by lia.
  rewrite Z.div_add by lia.
  replace (b / 64 + 4 * k) with (b / 64 + k * 4) by lia.
  apply Z.mod_add. lia.
Qed.

Lemma data_shift (b k : Z) : data (b + 256 * k) = data b.
Proof.
  rewrite !data_mod.
  replace (b + 256 * k) with (b + (4 * k) * 64) by lia.
  apply Z.mod_add. lia.
Qed.

(** The byte value splits into kind and payload. *)
Lemma byte_value_fields (b : Z) : byte_value b = data b + 64 * type b.
Proof.
  unfold byte_value. rewrite data_mod, type_mod.
  change 256 with (64 * 4). apply Z.rem_mul_r; lia.
Qed.

Lemma to_string_inj (n m : Z) : to_string n = to_string m -> n = m.
Proof.
  intros H. apply (f_equal decimal_value) in H.
  rewrite !decimal_value_to_string in H. congruence.
Qed.

Lemma letter_not_numeral (p : Z) :
  0 <= p < 64 -> decimal_value (string1 (ascii_of_N (97 + Z.to_N p))) = None.
Proof.
  revert p. apply payload_cases. intros n Hn. every_payload n.
Qed.

Lemma letter_inj (p q : Z) :
  0 <= p < 64 -> 0 <= q < 64 ->
  string1 (ascii_of_N (97 + Z.to_N p)) = string1 (ascii_of_N (97 + Z.to_N q)) ->
  p = q.
Proof.
  intros Hp Hq H. unfold string1 in H.
  assert (E : ascii_of_N (97 + Z.to_N p) = ascii_of_N (97 + Z.to_N q))
    by congruence.
  apply (f_equal N_of_ascii) in E.
  rewrite !N_ascii_embedding in E by lia. lia.
Qed.

Lemma to_string_length (p : Z) :
  0 <= p < 64 ->
  String.length (to_string p) = if p <? 10 then 1%nat else 2%nat.
Proof.
  revert p. apply payload_cases. intros n Hn. every_payload n.
Qed.

(** What [convert] yields, by the kind of the byte. *)
Lemma convert_cases (b : Z) :
  (type b = 0 /\ convert b = Some (to_string (data b))) \/
  (type b = 1 /\ convert b = Some (to_string (data b))) \/
  (type b = 2 /\ convert b = Some (string1 (ascii_of_N (97 + Z.to_N (data b))))) \/
  (type b = 3 /\ convert b = None).
Proof.
  pose proof (data_range b) as Hd. unfold convert.
  destruct (type_cases b) as [H | [H | [H | H]]]; rewrite H; cbv beta iota.
  - auto.
  - rewrite int8_cast_small by lia. auto.
  - rewrite char_cast_letter by lia. auto 6.
  - auto 6.
Qed.

(** X1. The conversion depends on the eight bits of the byte only: numbers
    that differ by a multiple of 256 are converted alike, so a byte read
    through a signed [char] (-128..127) and through an unsigned one
    (0..255) gives the same result. *)
Theorem convert_low_byte (b k : Z) :
  convert (b + 256 * k) = convert b /\
  convert (byte_value b) = convert b /\
  convert (int8_cast b) = convert b.
Proof.
  assert (H : forall x j, convert (x + 256 * j) = convert x).
  { intros x j. unfold convert. now rewrite type_shift, data_shift. }
  split; [apply H|]. split.
  - unfold byte_value. rewrite Z.mod_eq by lia.
    replace (b - 256 * (b / 256)) with (b + 256 * (- (b / 256))) by lia. apply H.
  - unfold int8_cast. rewrite Z.mod_eq by lia.
    replace (b + 128 - 256 * ((b + 128) / 256) - 128)
      with (b + 256 * (- ((b + 128) / 256))) by lia.
    apply H.
Qed.

(** X2. The conversion by the value [v] of the byte: 0..63 gives the
    numeral of [v], 64..127 the numeral of [v - 64], 128..191 the character
    of code [v - 31], and 192..255, and only these, give nothing. *)
Theorem convert_by_value (b : Z) :
  let v := byte_value b in
  0 <= v < 256 /\
  (v < 64 -> convert b = Some (to_string v)) /\
  (64 <= v < 128 -> convert b = Some (to_string (v - 64))) /\
  (128 <= v < 192 -> convert b = Some (string1 (ascii_of_N (Z.to_N (v - 31))))) /\
  (192 <= v <-> convert b = None).
Proof.
  intros v. pose proof (byte_value_fields b) as Hv. fold v in Hv.
  pose proof (data_range b) as Hd.
  assert (Hr : 0 <= v < 256) by (apply Z.mod_pos_bound; lia).
  split; [exact Hr|].
  destruct (convert_cases b) as [[Ht Hc] | [[Ht Hc] | [[Ht Hc] | [Ht Hc]]]];
    rewrite Hc; rewrite Ht in Hv.
  - repeat split; intros; try lia; try discriminate.
    do 2 f_equal. lia.
  - repeat split; intros; try lia; try discriminate.
    do 2 f_equal. lia.
  - repeat split; intros; try lia; try discriminate.
    do 3 f_equal. lia.
  - repeat split; intros; try lia; try discriminate.
Qed.

Lemma convert_by_value_witness :
  convert 200 = None /\ convert (-156) = Some "36"%string.
Proof.
  split.
  - apply (convert_by_value 200). vm_compute. discriminate.
  - apply (convert_by_value (-156)); vm_compute; split;
      [discriminate | reflexivity].
Defined.

(** X3. Two bytes converted to the same string have the same payload, and
    are both of the Letter kind or both of a number kind: the string tells
    everything about the byte but whether its kind was 00 or 01. *)
Theorem convert_same_string (b1 b2 : Z) (s : string) :
  convert b1 = Some s -> convert b2 = Some s ->
  data b1 = data b2 /\ (type b1 = 2 <-> type b2 = 2).
Proof.
  intros H1 H2.
  pose proof (data_range b1) as Hd1. pose proof (data_range b2) as Hd2.
  destruct (convert_cases b1) as [[T1 C1] | [[T1 C1] | [[T1 C1] | [T1 C1]]]];
    destruct (convert_cases b2) as [[T2 C2] | [[T2 C2] | [[T2 C2] | [T2 C2]]]];
    rewrite ?T1, ?T2; try congruence;
    rewrite C1 in H1; rewrite C2 in H2;
    match goal with
    | H1 : Some ?x = Some s, H2 : Some ?y = Some s |- _ =>
        assert (E : x = y) by congruence; clear H1 H2
    end.
  all: try (apply to_string_inj in E; split; [congruence | split; discriminate]).
  all: try (apply letter_inj in E; [|lia|lia]; split; [congruence | tauto]).
  all: exfalso; apply (f_equal decimal_value) in E;
    rewrite decimal_value_to_string, letter_not_numeral in E by lia;
    discriminate.
Qed.

Lemma convert_same_string_witness :
  data 69 = data 5 /\ (type 69 = 2 <-> type 5 = 2).
Proof.
  apply (convert_same_string 69 5 "5"%string); reflexivity.
Defined.

(** X4. A string produced by the conversion has one character, or two when
    it is the numeral of a payload of 10 or more. *)
Theorem convert_length (b : Z) (s : string) :
  convert b = Some s ->
  String.length s =
  if (type b =? 2) || (data b <? 10) then 1%nat else 2%nat.
Proof.
  intros H. pose proof (data_range b) as Hd.
  destruct (convert_cases b) as [[T C] | [[T C] | [[T C] | [T C]]]];
    rewrite C in H; try discriminate;
    assert (E : s = match convert b with Some x => x | None => s end)
      by (rewrite C; congruence);
    rewrite C in E; rewrite E, T; cbn [Z.eqb Pos.eqb orb].
  - now apply to_string_length.
  - now apply to_string_length.
  - reflexivity.
Qed.

Lemma convert_length_witness :
  String.length "63"%string = 2%nat.
Proof.
  apply (convert_length 63 "63"%string). reflexivity.
Defined.

End CodecMore.

(** * Further properties of the threads *)

Section ThreadsMore.

Lemma credit_step (l : label) (c c' : Converter) :
  wf c -> step l c = Next c' ->
  (List.length (sink_ c') + credit c' + spawned c <=
   List.length (sink_ c) + credit c + spawned c' +
   (if is_spurious l then 1 else 0))%nat.
Proof.
  intros [Ha Hb Hc Hd] H.
  destruct c as [src snk [|] t m cl n]; simpl in *;
    destruct l; split_step H; unfold credit; simpl;
    rewrite ?List.length_app; simpl; feed_premises;
    first [lia | congruence
          | destruct t as [[| | | str | | | |]|]; simpl; lia].
Qed.

Lemma credit_exec (tr : list label) :
  forall c c',
    wf c -> exec tr c = Next c' ->
    (List.length (sink_ c') + credit c' + spawned c <=
     List.length (sink_ c) + credit c + spawned c' + wakes tr)%nat.
Proof.
  induction tr as [|l tr IH]; intros c c' Hwf H; simpl in H.
  - injection H as <-. unfold wakes. simpl. lia.
  - destruct (step l c) as [c1| | |] eqn:E; try discriminate.
    pose proof (credit_step _ _ _ Hwf E) as H1.
    pose proof (IH _ _ (wf_step _ _ _ Hwf E) H) as H2.
    unfold wakes in *. simpl. destruct (is_spurious l); simpl; lia.
Qed.

(** X5. The worker pauses after every write: the number of strings in the
    sink never exceeds the number of threads [start] has created plus the
    number of spurious returns of [cv_.wait].  Without such returns each
    call of [start] that creates a thread brings at most one string. *)
Theorem writes_bounded (src : list Z) (tr : list label) (c : Converter) :
  exec tr (init src) = Next c ->
  (List.length (sink_ c) + credit c <= spawned c + wakes tr)%nat /\
  (wakes tr = 0%nat -> no_stop tr = true -> List.length (sink_ c) <= 1)%nat.
Proof.
  intros H.
  pose proof (credit_exec _ _ _ (wf_init src) H) as Hc.
  unfold credit in Hc at 2. simpl in Hc.
  split; [lia|]. intros Hw Hn.
  pose proof (never_stopped_exec _ _ _ _ (never_stopped_init src) Hn H) as [_ Hi].
  simpl in Hi. destruct (existsb is_start tr).
  - destruct Hi as [_ [Hs _]]. lia.
  - destruct Hi as [_ [Hs _]]. lia.
Qed.

Lemma writes_bounded_witness :
  let c := mkConverter [6; 7] ["5"%string] true (Some Waiting) false Idle 1 in
  exec [CallStart; Work; Work; Work; Work; Work] (init [5; 6; 7]) = Next c /\
  (List.length (sink_ c) <= 1)%nat.
Proof.
  intros c.
  assert (H : exec [CallStart; Work; Work; Work; Work; Work] (init [5; 6; 7]) = Next c)
    by (vm_compute; reflexivity).
  split; [exact H|].
  apply (writes_bounded _ _ _ H); reflexivity.
Defined.



(** X7. Only [run] locks [mutex], so in every state the program reaches the
    worker's next action completes unless the worker is blocked inside
    [cv_.wait] or has returned: it never has to wait for the lock. *)
Theorem worker_blocks_only_in_wait (src : list Z) (tr : list label) (c : Converter) :
  exec tr (init src) = Next c ->
  ((exists c', step Work c = Next c') <->
   (exists pc, thread_ c = Some pc /\ pc <> Waiting /\ pc <> Finished)) /\
  (step Work c = Blocked <->
   (thread_ c = None \/ thread_ c = Some Waiting \/ thread_ c = Some Finished)).
Proof.
  intros H. destruct (wf_reachable _ _ _ H) as [Ha Hb Hc Hd].
  destruct c as [bs snk r t m cl n]; simpl in *. subst m.
  destruct t as [[| | | str | | | |]|]; simpl; split; split;
    try (intros [c' Hx]; discriminate);
    try (intros [pc [Hx [Hw Hf]]]; congruence);
    try (intros _; eexists; repeat split; congruence);
    try discriminate; auto;
    try (intros [Hx | [Hx | Hx]]; discriminate).
  all: try (intros _; destruct r; eexists; reflexivity).
  all: try (destruct r; discriminate).
  all: try (intros _; destruct bs as [|b bs']; [|destruct (convert b)];
            eexists; reflexivity).
  all: destruct bs as [|b bs']; [|destruct (convert b)]; discriminate.
Qed.

Lemma worker_blocks_only_in_wait_witness :
  let c := mkConverter [] [] true (Some AtLock) false Idle 1 in
  exec [CallStart; Work] (init []) = Next c /\
  exists c', step Work c = Next c'.
Proof.
  intros c.
  assert (H : exec [CallStart; Work] (init []) = Next c) by reflexivity.
  split; [exact H|].
  apply (worker_blocks_only_in_wait _ _ _ H).
  exists AtLock. repeat split; discriminate.
Defined.

(** X8. When a call of [stop] has returned, the flag is clear, [thread_] is
    not joinable and the lock is free, so that the destructor, which calls
    [stop], can destroy the members; and as long as no new thread is created
    nothing is read from the source and nothing is written to the sink. *)
Theorem stop_returned (src : list Z) (tr : list label) (l : label) (c : Converter) :
  exec (tr ++ [l]) (init src) = Next c ->
  l = StopJoin \/ (l = CallStop /\ caller c = Idle) ->
  running_ c = false /\ thread_ c = None /\ mutex c = false /\
  destroy_members c = Next c /\
  forall tr2 c2,
    exec tr2 c = Next c2 -> spawned c2 = spawned c ->
    ~ In Work tr2 /\ sink_ c2 = sink_ c /\ source_ c2 = source_ c.
Proof.
  intros H Hl.
  pose proof (wf_reachable _ _ _ H) as Hwf.
  assert (Hs : caller c = Idle /\ running_ c = false).
  { apply exec_snoc in H as [c0 [H0 Hstep]].
    destruct Hl as [-> | [-> Hi]].
    - destruct (stop_returns_joined _ _ _ _ H0 Hstep) as [Hr [_ Hc]]. auto.
    - split; [exact Hi|].
      destruct c0 as [bs snk [|] t m [| |] n]; simpl in Hstep;
        try discriminate; injection Hstep as <-; simpl in *;
        first [discriminate | reflexivity]. }
  destruct Hs as [Hi Hr].
  pose proof (wf_stopped _ Hwf Hi Hr) as Ht.
  pose proof (wf_mutex _ Hwf) as Hm. rewrite Ht in Hm. simpl in Hm.
  repeat split; auto.
  - unfold destroy_members. now rewrite Ht.
  - eapply exited_quiet in H0; [|right; exact Ht|assumption]. now apply H0.
  - eapply exited_quiet in H0; [|right; exact Ht|assumption]. apply H0.
  - eapply exited_quiet in H0; [|right; exact Ht|assumption]. apply H0.
Qed.

Lemma stop_returned_witness :
  let c := mkConverter [6] ["5"%string] false None false Idle 1 in
  exec ([CallStart; Work; Work; Work; Work; Work; CallStop; StopNotify; Work; Work]
          ++ [StopJoin]) (init [5; 6]) = Next c /\
  destroy_members c = Next c.
Proof.
  intros c.
  assert (H : exec ([CallStart; Work; Work; Work; Work; Work; CallStop;
                     StopNotify; Work; Work] ++ [StopJoin]) (init [5; 6]) = Next c)
    by (vm_compute; reflexivity).
  split; [exact H|].
  apply (stop_returned _ _ _ _ H). left. reflexivity.
Defined.

Lemma stopped_step (l : label) (c c' : Converter) :
  running_ c = false -> step l c = Next c' -> spawned c' = spawned c ->
  running_ c' = false /\
  (List.length (sink_ c') + credit c' <= List.length (sink_ c) + credit c)%nat.
Proof.
  intros Hr H.
  destruct c as [src snk r t m cl n]; simpl in *; subst r.
  destruct l; split_step H; unfold credit; simpl in *;
    rewrite ?List.length_app; simpl; intros Hs; split;
    first [reflexivity | lia].
Qed.

Lemma sink_grows_step (l : label) (c c' : Converter) :
  step l c = Next c' -> (List.length (sink_ c) <= List.length (sink_ c'))%nat.
Proof.
  intros H. destruct c as [src snk r t m cl n]; simpl.
  destruct l; split_step H; simpl; rewrite ?List.length_app; simpl; lia.
Qed.

Lemma sink_grows (tr : list label) :
  forall c c', exec tr c = Next c' ->
               (List.length (sink_ c) <= List.length (sink_ c'))%nat.
Proof.
  induction tr as [|l tr IH]; intros c c' H; simpl in H.
  - injection H as <-. lia.
  - destruct (step l c) as [c1| | |] eqn:E; try discriminate.
    apply sink_grows_step in E. apply IH in H. lia.
Qed.

(** X9. [stop] is cooperative.  Once the flag is clear, and until [start]
    creates a new thread, the flag stays clear and the sink receives at most
    one more string: the one of a byte the worker had already set out to
    read; a worker that is at the test of the loop, waiting or gone writes
    nothing more. *)
Theorem flag_clear_one_more_write (c : Converter) (tr : list label) (c' : Converter) :
  running_ c = false ->
  exec tr c = Next c' ->
  spawned c' = spawned c ->
  running_ c' = false /\
  (List.length (sink_ c') + credit c' <= List.length (sink_ c) + credit c)%nat /\
  (List.length (sink_ c') <= List.length (sink_ c) + 1)%nat /\
  (thread_ c = Some AtLoop \/ thread_ c = Some Waiting \/ thread_ c = Some AtWait \/
   thread_ c = Some Woken \/ exited c ->
   List.length (sink_ c') = List.length (sink_ c)).
Proof.
  revert c. induction tr as [|l tr IH]; intros c Hr H Hs; simpl in H.
  - injection H as <-. repeat split; auto; lia.
  - destruct (step l c) as [c1| | |] eqn:E; try discriminate.
    pose proof (spawned_step _ _ _ E) as Hle1.
    pose proof (spawned_exec _ _ _ H) as Hle2.
    destruct (stopped_step _ _ _ Hr E ltac:(lia)) as [Hr1 Hc1].
    destruct (IH c1 Hr1 H ltac:(lia)) as [Hr' [Hc' _]].
    assert (Hm : (List.length (sink_ c) <= List.length (sink_ c'))%nat).
    { pose proof (sink_grows_step _ _ _ E). pose proof (sink_grows _ _ _ H). lia. }
    assert (Hcr : (credit c <= 1)%nat).
    { unfold credit. destruct (thread_ c) as [[| | | str | | | |]|];
        destruct (running_ c); simpl; lia. }
    split; [exact Hr'|]. split; [lia|]. split; [lia|].
    intros Ht.
    assert (Hz : credit c = 0%nat).
    { unfold credit, exited in *. rewrite Hr.
      destruct Ht as [-> | [-> | [-> | [-> | [-> | ->]]]]]; reflexivity. }
    lia.
Qed.

Lemma flag_clear_one_more_write_witness :
  let c := mkConverter [5; 6] [] false (Some AtRead) true StopAtNotify 1 in
  let c' := mkConverter [6] ["5"%string] false None false Idle 1 in
  exec [Work; StopNotify; Work; Work; Spurious; Work; Work; StopJoin] c = Next c' /\
  (List.length (sink_ c') <= List.length (sink_ c) + 1)%nat.
Proof.
  intros c c'.
  assert (H : exec [Work; StopNotify; Work; Work; Spurious; Work; Work; StopJoin] c
              = Next c') by (vm_compute; reflexivity).
  split; [exact H|].
  apply (flag_clear_one_more_write c _ c' eq_refl H eq_refl).
Defined.

Lemma pass_skipped_any (b : Z) (rest : list Z) (snk : list string)
      (m : bool) (cl : cpc) (n : nat) :
  convert b = None ->
  exec pass_skipped (mkConverter (b :: rest) snk true (Some AtLoop) false cl n) =
  Next (mkConverter rest snk true (Some AtLoop) false cl n).
Proof. intros E. unfold pass_skipped. simpl. rewrite E. reflexivity. Qed.

Lemma skip_passes_exec (rs : list Z) :
  forall (c : Converter) (rest : list Z),
    Forall (fun b => type b = 3) rs ->
    thread_ c = Some AtLoop -> running_ c = true -> mutex c = false ->
    source_ c = (rs ++ rest)%list ->
    exec (skip_passes (List.length rs)) c = Next (set_source rest c).
Proof.
  induction rs as [|b rs IH]; intros c rest Hall Ht Hr Hm Hs.
  - destruct c as [bs snk r t m cl n]; simpl in *; subst. reflexivity.
  - inversion Hall as [|? ? Hb Hrest]; subst.
    assert (Hc : convert b = None) by (unfold convert; now rewrite Hb).
    destruct c as [bs snk r t m cl n]; simpl in Ht, Hr, Hm, Hs; subst.
    cbn [List.length skip_passes]. rewrite exec_app.
    rewrite (pass_skipped_any b _ snk false cl n Hc).
    rewrite (IH _ rest); auto.
Qed.

(** X10. Reserved bytes cost no pause: a worker at the test of the loop,
    with the flag set, consumes any run of bytes of kind 11 by its own
    actions alone, three for each byte, writes nothing and stands at the
    test of the loop again, before the bytes that follow. *)
Theorem reserved_run (c : Converter) (rs rest : list Z) :
  Forall (fun b => type b = 3) rs ->
  thread_ c = Some AtLoop -> running_ c = true -> mutex c = false ->
  source_ c = (rs ++ rest)%list ->
  exists c',
    exec (skip_passes (List.length rs)) c = Next c' /\
    c' = set_source rest c /\
    source_ c' = rest /\ sink_ c' = sink_ c /\
    thread_ c' = Some AtLoop /\ mutex c' = false.
Proof.
  intros Hall Ht Hr Hm Hs. exists (set_source rest c).
  split; [now apply skip_passes_exec|]. simpl. auto.
Qed.

Lemma reserved_run_witness :
  let c := mkConverter [255; 192; 200; 5] [] true (Some AtLoop) false Idle 1 in
  exists c', exec (skip_passes 3) c = Next c' /\ source_ c' = [5] /\ sink_ c' = [].
Proof.
  intros c.
  destruct (reserved_run c [255; 192; 200] [5]) as [c' [He [_ [Hs [Hk _]]]]];
    try reflexivity.
  - repeat constructor.
  - exists c'. auto.
Defined.

Lemma spec_renderings_length (bs : list Z) :
  (List.length (spec_renderings bs) <= List.length bs)%nat.
Proof.
  induction bs as [|b bs IH]; simpl; [lia|].
  destruct (spec_render b); simpl; lia.
Qed.

(** X11. No string without a byte: in every state the program reaches, the
    strings written, the string about to be written and the bytes still in
    the source are together no more than the bytes the source held, and the
    bytes left are the end of the source's sequence. *)
Theorem writes_within_reads (src : list Z) (tr : list label) (c : Converter) :
  exec tr (init src) = Next c ->
  (List.length (sink_ c) + List.length (pending c) + List.length (source_ c)
   <= List.length src)%nat /\
  exists read,
    src = (read ++ source_ c)%list /\
    (List.length (sink_ c) <= List.length read)%nat.
Proof.
  intros H. destruct (delivered_reachable _ _ _ H) as [d [Hs Hr]].
  pose proof (spec_renderings_length d) as Hl.
  rewrite <- Hr, List.length_app in Hl.
  split.
  - rewrite Hs, List.length_app. lia.
  - exists d. split; [exact Hs | lia].
Qed.

Lemma writes_within_reads_witness :
  let c := mkConverter [7] ["5"%string] true (Some AtWait) true Idle 1 in
  exec [CallStart; Work; Work; Work; Work; Work; Work; Work] (init [255; 5; 7]) = Next c /\
  (List.length (sink_ c) + List.length (pending c) + List.length (source_ c)
   <= 3)%nat.
Proof.
  intros c.
  assert (H : exec [CallStart; Work; Work; Work; Work; Work; Work; Work]
                (init [255; 5; 7]) = Next c) by (vm_compute; reflexivity).
  split; [exact H|].
  apply (writes_within_reads _ _ _ H).
Defined.



(** X13. What a started converter does by itself: [start] on a new
    converter whose source holds Reserved bytes followed by a byte that is
    converted lets the worker, with no help from the owner, skip the former,
    write the string of the latter and block in [cv_.wait] with the rest of
    the source unread; when the source holds Reserved bytes only, the
    worker consumes them, writes nothing and returns. *)
Theorem started_worker_first_pause (rs : list Z) (b : Z) (rest : list Z) (str : string) :
  Forall (fun x => type x = 3) rs ->
  convert b = Some str ->
  exec (CallStart :: skip_passes (List.length rs) ++ [Work; Work; Work; Work; Work])
       (init (rs ++ b :: rest)) =
  Next (mkConverter rest [str] true (Some Waiting) false Idle 1) /\
  step Work (mkConverter rest [str] true (Some Waiting) false Idle 1) = Blocked /\
  exec (CallStart :: skip_passes (List.length rs) ++ [Work; Work; Work])
       (init rs) =
  Next (mkConverter [] [] true (Some Finished) false Idle 1).
Proof.
  intros Hall Hc. split; [|split; [reflexivity|]].
  - cbn [exec]. change (step CallStart (init (rs ++ b :: rest))) with
      (Next (mkConverter (rs ++ b :: rest) [] true (Some AtLoop) false Idle 1)).
    cbv beta iota. rewrite exec_app.
    rewrite (skip_passes_exec rs
               (mkConverter (rs ++ b :: rest) [] true (Some AtLoop) false Idle 1)
               (b :: rest) Hall eq_refl eq_refl eq_refl eq_refl).
    simpl. rewrite Hc. reflexivity.
  - cbn [exec]. change (step CallStart (init rs)) with
      (Next (mkConverter rs [] true (Some AtLoop) false Idle 1)).
    cbv beta iota. rewrite exec_app.
    assert (Hs : source_ (mkConverter rs [] true (Some AtLoop) false Idle 1)
                 = (rs ++ [])%list) by (simpl; now rewrite app_nil_r).
    rewrite (skip_passes_exec rs
               (mkConverter rs [] true (Some AtLoop) false Idle 1)
               [] Hall eq_refl eq_refl eq_refl Hs).
    reflexivity.
Qed.

Lemma started_worker_first_pause_witness :
  exec (CallStart :: skip_passes 2 ++ [Work; Work; Work; Work; Work])
       (init ([255; 192] ++ 129 :: [5])) =
  Next (mkConverter [5] ["b"%string] true (Some Waiting) false Idle 1).
Proof.
  apply (started_worker_first_pause [255; 192] 129 [5] "b"%string).
  - repeat constructor.
  - reflexivity.
Defined.

End ThreadsMore.
